(** * Reach (valhalla/loki/reach.h): directional reachability estimate

    The header [src/valhalla/loki/reach.h] fixes the data of the component:
    the direction mask constants [kInbound]/[kOutbound], the result type
    [directed_reach] with two 16-bit bitfields, and the instance state of
    class [Reach] ([queue], [done], [max_reach_]).  The bodies of
    [operator()], [exact], [ShouldExpand], [Clear] and the generic expansion
    engine [thor::Dijkstras] they plug into are not part of the sources; they
    are modelled below from the specification, each such definition being
    marked "Modelled from the spec". *)

From Stdlib Require Import NArith Lia.
From stdpp Require Import base gmap sets list.

Open Scope N_scope.

(** ** Constants and result type (reach.h, lines 8-9 and 37-40) *)

Definition kInbound : N := 1.
Definition kOutbound : N := 2.

(** [struct directed_reach { uint32_t outbound : 16; uint32_t inbound : 16; }].
    Assigning an unsigned value to an unsigned 16-bit bitfield stores it
    modulo 2^16. *)
Record directed_reach := mk_directed_reach { outbound : N; inbound : N }.

Definition bitfield16 (v : N) : N := v mod 65536.

Definition set_outbound (r : directed_reach) (v : N) : directed_reach :=
  mk_directed_reach (bitfield16 v) (inbound r).

Definition set_inbound (r : directed_reach) (v : N) : directed_reach :=
  mk_directed_reach (outbound r) (bitfield16 v).

(** [directed_reach reach{}]: value-initialised, both fields zero. *)
Definition empty_reach : directed_reach := mk_directed_reach 0 0.

(** Is the flag [flag] set in the [uint8_t direction] mask? *)
Definition has_dir (direction flag : N) : bool := negb (N.land direction flag =? 0).

(** ** Collaborators (spec section 6) *)

(** Modelled from the spec: the graph reader.  Edge identities are the
    [uint64_t] values stored in the [queue]/[done] sets.  [succ_edges e] are
    the edges leaving the end of [e], [pred_edges e] the edges entering its
    start, and [resolves e] tells whether the reader resolves the identity. *)
Record GraphReader := mkGraphReader {
  succ_edges : N -> list N;
  pred_edges : N -> list N;
  resolves : N -> bool
}.

(** Modelled from the spec: the costing model.  [Allowed] is false for a
    permanently restricted edge, [Skippable] marks a conditionally
    restriction-skippable edge, [EdgeCost] is the traversal cost. *)
Record DynamicCost := mkDynamicCost {
  Allowed : N -> bool;
  Skippable : N -> bool;
  EdgeCost : N -> N
}.

(** The directed edge record behind the [const DirectedEdge*] argument; a
    null pointer is [None]. *)
Record DirectedEdge := mkDirectedEdge { endnode : N }.

(** Modelled from the spec: a frontier label (edge identity, accumulated
    cost, restriction-skippable flag). *)
Record EdgeLabel := mkEdgeLabel {
  lbl_edge : N;
  lbl_cost : N;
  lbl_skippable : bool
}.

Inductive ExpansionRecommendation :=
| continue_expansion
| prune_expansion
| stop_expansion.

Inductive ExpansionType := forward | reverse.

(** Conservative pass (restriction-skippable edges pruned) or exact pass. *)
Inductive ReachMode := conservative | exact_mode.

(** How an expansion ended; [out_of_fuel] only bounds the model's loop. *)
Inductive Outcome := saturated | exhausted | out_of_fuel.

(** ** Instance state of [class Reach] (reach.h, lines 88-89)

    [queue] and [done] are the two [unordered_set<uint64_t>] members and
    [max_reach_] the [uint32_t] member.  [adjacency] is the frontier owned
    by the [thor::Dijkstras] base class and [provisional] the spec's record
    that a conservative pass pruned a restriction-skippable edge. *)
Record ReachState := mkReachState {
  queue : gset N;
  done : gset N;
  max_reach_ : N;
  adjacency : list EdgeLabel;
  provisional : bool
}.

Definition set_done (st : ReachState) (d : gset N) : ReachState :=
  mkReachState (queue st) d (max_reach_ st) (adjacency st) (provisional st).

Definition set_provisional (st : ReachState) (b : bool) : ReachState :=
  mkReachState (queue st) (done st) (max_reach_ st) (adjacency st) b.

Definition set_max_reach (st : ReachState) (m : N) : ReachState :=
  mkReachState (queue st) (done st) m (adjacency st) (provisional st).

(** Modelled from the spec (4.5): [Reach::Clear] empties the pending and
    settled sets, together with the engine's frontier and the per-direction
    provisional mark. *)
Definition Clear (st : ReachState) : ReachState :=
  mkReachState ∅ ∅ (max_reach_ st) [] false.

(** Modelled from the spec (4.3): [Reach::ShouldExpand]. *)
Definition ShouldExpand (mode : ReachMode) (st : ReachState) (pred : EdgeLabel)
  : ExpansionRecommendation * ReachState :=
  let e := lbl_edge pred in
  if decide (e ∈ done st) then (prune_expansion, st)
  else
    let st' := set_done st ({[e]} ∪ done st) in
    if N.of_nat (size (done st')) =? max_reach_ st then (stop_expansion, st')
    else
      match mode with
      | conservative =>
          if lbl_skippable pred then (prune_expansion, set_provisional st' true)
          else (continue_expansion, st')
      | exact_mode => (continue_expansion, st')
      end.

(** ** The generic expansion engine (thor::Dijkstras)

    Modelled from the spec (6): the frontier is kept sorted by accumulated
    cost, the lowest-cost label is popped first, and the decision callback
    says whether to expand its successors.  The pending set [queue] holds
    the edges that have a label in the frontier. *)

Fixpoint insert_label (l : EdgeLabel) (adj : list EdgeLabel) : list EdgeLabel :=
  match adj with
  | [] => [l]
  | l' :: rest =>
      if lbl_cost l <? lbl_cost l' then l :: adj else l' :: insert_label l rest
  end.

Definition push_label (st : ReachState) (l : EdgeLabel) : ReachState :=
  mkReachState ({[lbl_edge l]} ∪ queue st) (done st) (max_reach_ st)
    (insert_label l (adjacency st)) (provisional st).

Definition make_label (c : DynamicCost) (acc : N) (e : N) : EdgeLabel :=
  mkEdgeLabel e (acc + EdgeCost c e) (Skippable c e).

Definition pop_label (st : ReachState) (l : EdgeLabel) (rest : list EdgeLabel)
  : ReachState :=
  mkReachState
    (if existsb (fun l' => lbl_edge l' =? lbl_edge l) rest then queue st
     else queue st ∖ {[lbl_edge l]})
    (done st) (max_reach_ st) rest (provisional st).

(** Push a label for every allowed neighbour of the expanded edge. *)
Definition expand_from (c : DynamicCost) (adj : N -> list N) (pred : EdgeLabel)
  (st : ReachState) : ReachState :=
  fold_left
    (fun st e => if Allowed c e then push_label st (make_label c (lbl_cost pred) e) else st)
    (adj (lbl_edge pred)) st.

Fixpoint expand_loop (fuel : nat) (mode : ReachMode) (c : DynamicCost)
  (adj : N -> list N) (st : ReachState) : Outcome * ReachState :=
  match fuel with
  | O => (out_of_fuel, st)
  | S n =>
      match adjacency st with
      | [] => (exhausted, st)
      | l :: rest =>
          match ShouldExpand mode (pop_label st l rest) l with
          | (stop_expansion, st2) => (saturated, st2)
          | (prune_expansion, st2) => expand_loop n mode c adj st2
          | (continue_expansion, st2) => expand_loop n mode c adj (expand_from c adj l st2)
          end
      end
  end.

Definition adjacent (reader : GraphReader) (ty : ExpansionType) : N -> list N :=
  match ty with forward => succ_edges reader | reverse => pred_edges reader end.

(** [Dijkstras::Expand]: clear, seed with the edge, run the loop. *)
Definition Expand (fuel : nat) (mode : ReachMode) (reader : GraphReader)
  (c : DynamicCost) (ty : ExpansionType) (edge_id : N) (st : ReachState)
  : Outcome * ReachState :=
  expand_loop fuel mode c (adjacent reader ty)
    (push_label (Clear st) (make_label c 0 edge_id)).

(** The settled count of the last expansion, [done.size()]. *)
Definition settled_count (st : ReachState) : N := N.of_nat (size (done st)).

(** ** [Reach::exact] and [Reach::operator()] *)

(** Modelled from the spec (3, 4.2): [Reach::exact], one exact expansion
    per requested direction; the settled count is stored in the result and
    the tracker is then cleared, so that it is empty at the start and at the
    end of every direction's expansion. *)
Definition exact (st : ReachState) (reader : GraphReader) (c : DynamicCost)
  (edge : option DirectedEdge) (edge_id : N) (max_reach : N) (direction : N)
  (fuel : nat) : directed_reach * ReachState :=
  let st := set_max_reach st max_reach in
  let '(r, st) :=
    if has_dir direction kOutbound then
      let '(_, st1) := Expand fuel exact_mode reader c forward edge_id st in
      (set_outbound empty_reach (settled_count st1), Clear st1)
    else (empty_reach, st) in
  if has_dir direction kInbound then
    let '(_, st1) := Expand fuel exact_mode reader c reverse edge_id st in
    (set_inbound r (settled_count st1), Clear st1)
  else (r, st).

(** The conservative pass is inconclusive: it pruned a restriction-skippable
    edge and ended below the threshold. *)
Definition needs_exact (st : ReachState) (max_reach : N) : bool :=
  provisional st && (settled_count st <? max_reach).

(** Modelled from the spec (7): the precondition checked on entry. *)
Definition valid_input (reader : GraphReader) (edge : option DirectedEdge)
  (edge_id : N) (max_reach : N) : bool :=
  match edge with
  | None => false
  | Some _ => resolves reader edge_id && negb (max_reach =? 0)
  end.

(** Modelled from the spec (3, 4.1, 7): [Reach::operator()].  [None] is the
    failed precondition check (fail fast); [fuel] bounds the model's loop.
    After a conservative expansion its provisional mark and settled count
    are read, then the tracker is cleared (spec 3: empty at the end of
    every direction's expansion); the exact fallback clears again after
    its own expansion. *)
Definition reach_op (st : ReachState) (reader : GraphReader) (c : DynamicCost)
  (edge : option DirectedEdge) (edge_id : N) (max_reach : N) (direction : N)
  (fuel : nat) : option directed_reach * ReachState :=
  if negb (valid_input reader edge edge_id max_reach) then (None, st)
  else
    let st := set_max_reach st max_reach in
    let '(r, st) :=
      if has_dir direction kOutbound then
        let '(_, st1) := Expand fuel conservative reader c forward edge_id st in
        if needs_exact st1 max_reach then
          let '(x, st2) := exact (Clear st1) reader c edge edge_id max_reach kOutbound fuel in
          (set_outbound empty_reach (outbound x), st2)
        else (set_outbound empty_reach (settled_count st1), Clear st1)
      else (empty_reach, st) in
    if has_dir direction kInbound then
      let '(_, st1) := Expand fuel conservative reader c reverse edge_id st in
      if needs_exact st1 max_reach then
        let '(x, st2) := exact (Clear st1) reader c edge edge_id max_reach kInbound fuel in
        (Some (set_inbound r (inbound x)), st2)
      else (Some (set_inbound r (settled_count st1)), Clear st1)
    else (Some r, st).

(** ** Sample graphs *)

(** A chain [0 -> 1 -> ... -> n]. *)
Definition chain (n : N) : GraphReader :=
  mkGraphReader
    (fun e => if e <? n then [e + 1] else [])
    (fun e => if (0 <? e) && (e <=? n) then [e - 1] else [])
    (fun e => e <=? n).

(** Every edge allowed, unit costs; [skip] marks the skippable edges. *)
Definition unit_cost (skip : N -> bool) : DynamicCost :=
  mkDynamicCost (fun _ => true) skip (fun _ => 1).

Definition fresh_state : ReachState := mkReachState ∅ ∅ 0 [] false.

Definition some_edge : option DirectedEdge := Some (mkDirectedEdge 0).

(** The edges reachable from a seed through allowed edges of [adj]. *)
Inductive reachable (c : DynamicCost) (adj : N -> list N) (s : N) : N -> Prop :=
| reach_seed : reachable c adj s s
| reach_step (x y : N) :
    reachable c adj s x -> y ∈ adj x -> Allowed c y = true -> reachable c adj s y.

(** ** Structural lemmas on the engine *)

Definition frontier_edges (st : ReachState) : list N := lbl_edge <$> adjacency st.

Lemma insert_label_elem (l x : EdgeLabel) (adj : list EdgeLabel) :
  x ∈ insert_label l adj <-> x = l \/ x ∈ adj.
Proof.
  induction adj as [|l' rest IH]; cbn [insert_label].
  - rewrite list_elem_of_singleton. set_solver.
  - destruct (lbl_cost l <? lbl_cost l').
    + rewrite !elem_of_cons. tauto.
    + rewrite !elem_of_cons, IH. tauto.
Qed.

Lemma expand_from_fields (c : DynamicCost) (adj : N -> list N) (l : EdgeLabel) (st : ReachState) :
  done (expand_from c adj l st) = done st /\
  max_reach_ (expand_from c adj l st) = max_reach_ st /\
  provisional (expand_from c adj l st) = provisional st.
Proof.
  unfold expand_from. generalize (adj (lbl_edge l)) as xs. intros xs.
  revert st. induction xs as [|x xs IH]; intros st; simpl; [auto|].
  destruct (Allowed c x); edestruct IH as (-> & -> & ->); simpl; auto.
Qed.

Lemma frontier_push (st : ReachState) (l : EdgeLabel) (y : N) :
  y ∈ frontier_edges (push_label st l) <-> y = lbl_edge l \/ y ∈ frontier_edges st.
Proof.
  unfold frontier_edges, push_label; simpl. rewrite !list_elem_of_fmap.
  setoid_rewrite insert_label_elem. split.
  - intros [z [-> [-> | Hz]]]; [left; reflexivity | right; eauto].
  - intros [-> | [z [-> Hz]]]; eauto.
Qed.

Lemma expand_from_frontier (c : DynamicCost) (adj : N -> list N) (l : EdgeLabel)
  (st : ReachState) (y : N) :
  y ∈ frontier_edges (expand_from c adj l st) <->
  y ∈ frontier_edges st \/ (y ∈ adj (lbl_edge l) /\ Allowed c y = true).
Proof.
  unfold expand_from. generalize (adj (lbl_edge l)) as xs. intros xs.
  revert st. induction xs as [|x xs IH]; intros st; simpl.
  - rewrite elem_of_nil. tauto.
  - rewrite elem_of_cons.
    destruct (Allowed c x) eqn:Ha; rewrite IH.
    + rewrite frontier_push. simpl. split.
      * intros [[-> | H] | H]; tauto.
      * intros [H | [[-> | H] H']]; tauto.
    + split; [tauto|]. intros [H | [[-> | Hy] Hay]]; [tauto | congruence | tauto].
Qed.

Lemma ShouldExpand_fields (mode : ReachMode) (st : ReachState) (l : EdgeLabel)
  (r : ExpansionRecommendation) (st2 : ReachState) :
  ShouldExpand mode st l = (r, st2) ->
  queue st2 = queue st /\ max_reach_ st2 = max_reach_ st /\ adjacency st2 = adjacency st /\
  ((lbl_edge l ∈ done st /\ r = prune_expansion /\ st2 = st) \/
   ((lbl_edge l ∉ done st) /\ done st2 = {[lbl_edge l]} ∪ done st /\
    (r = stop_expansion <-> N.of_nat (size (done st2)) = max_reach_ st) /\
    (mode = exact_mode -> r = continue_expansion \/ r = stop_expansion) /\
    (r = continue_expansion -> provisional st2 = provisional st))).
Proof.
  unfold ShouldExpand. intros H.
  destruct (decide (lbl_edge l ∈ done st)) as [Hin | Hin].
  - injection H as <- <-. auto 10.
  - destruct (N.of_nat (size (done (set_done st ({[lbl_edge l]} ∪ done st)))) =? max_reach_ st)
      eqn:Hm.
    + injection H as <- <-. apply N.eqb_eq in Hm. simpl in *.
      repeat split; auto. right. repeat split; auto.
    + apply N.eqb_neq in Hm.
      destruct mode; [destruct (lbl_skippable l)|]; injection H as <- <-; simpl in *;
        repeat split; auto; right; repeat split; auto; try discriminate;
        intros Habs; try discriminate; contradiction.
Qed.

Lemma pop_label_fields (st : ReachState) (l : EdgeLabel) (rest : list EdgeLabel) :
  done (pop_label st l rest) = done st /\ max_reach_ (pop_label st l rest) = max_reach_ st /\
  provisional (pop_label st l rest) = provisional st /\ adjacency (pop_label st l rest) = rest.
Proof. unfold pop_label. auto. Qed.

(** One iteration of [expand_loop]: case analysis on the frontier and on
    the recommendation of [ShouldExpand]. *)
Ltac loop_step Hrun :=
  cbn [expand_loop] in Hrun;
  let Hadj := fresh "Hadj" in
  let l := fresh "l" in
  let rest := fresh "rest" in
  match type of Hrun with
  | context [adjacency ?s] => destruct (adjacency s) as [|l rest] eqn:Hadj
  end;
  [ | let r := fresh "r" in
      let st2 := fresh "st2" in
      let Hse := fresh "Hse" in
      match type of Hrun with
      | context [ShouldExpand ?m (pop_label ?s l rest) l] =>
          destruct (ShouldExpand m (pop_label s l rest) l) as [r st2] eqn:Hse;
          let Hf := fresh "Hf" in
          pose proof (ShouldExpand_fields _ _ _ _ _ Hse) as Hf;
          destruct (pop_label_fields s l rest) as (?Hpd & ?Hpm & ?Hpp & ?Hpa)
      end;
      destruct r ].

Lemma expand_loop_done_grows (fuel : nat) (mode : ReachMode) (c : DynamicCost)
  (adj : N -> list N) (st : ReachState) (o : Outcome) (st' : ReachState) :
  expand_loop fuel mode c adj st = (o, st') ->
  done st ⊆ done st' /\ max_reach_ st' = max_reach_ st.
Proof.
  revert st. induction fuel as [|n IH]; intros st Hrun.
  - injection Hrun as <- <-. set_solver.
  - loop_step Hrun.
    + injection Hrun as <- <-. set_solver.
    + destruct Hf as (_ & Hm & _ & [(_ & Hr & _) | (_ & Hd & _)]); [discriminate|].
      destruct (expand_from_fields c adj l st2) as (Hd' & Hm' & _).
      apply IH in Hrun as [Hsub Hmr]. rewrite Hd', Hpd in *. rewrite Hm', Hm, Hpm in *.
      split; [set_solver | assumption].
    + destruct Hf as (_ & Hm & _ & [(_ & _ & ->) | (_ & Hd & _)]);
        apply IH in Hrun as [Hsub Hmr]; rewrite ?Hpd, ?Hd, ?Hm, ?Hpm in *; split; set_solver.
    + injection Hrun as <- <-.
      destruct Hf as (_ & Hm & _ & [(_ & Hr & _) | (_ & Hd & _)]); [discriminate|].
      rewrite Hd, Hm, Hpd, Hpm. split; set_solver.
Qed.

Lemma size_settle (e : N) (d : gset N) : e ∉ d -> size ({[e]} ∪ d) = S (size d).
Proof. intros H. rewrite size_union by set_solver. rewrite size_singleton. reflexivity. Qed.

(** The settled count stays below the threshold while the expansion runs,
    and equals it exactly when the expansion stops. *)
Lemma expand_loop_count (fuel : nat) (mode : ReachMode) (c : DynamicCost)
  (adj : N -> list N) (st : ReachState) (o : Outcome) (st' : ReachState) :
  expand_loop fuel mode c adj st = (o, st') ->
  settled_count st < max_reach_ st ->
  max_reach_ st' = max_reach_ st /\
  (o = saturated -> settled_count st' = max_reach_ st) /\
  (o <> saturated -> settled_count st' < max_reach_ st).
Proof.
  unfold settled_count. revert st. induction fuel as [|n IH]; intros st Hrun Hlt.
  - injection Hrun as <- <-. split; [reflexivity|]. split; [discriminate | auto].
  - loop_step Hrun.
    + injection Hrun as <- <-. split; [reflexivity|]. split; [discriminate | auto].
    + destruct Hf as (_ & Hm & _ & [(_ & Hr & _) | (Hn & Hd & Hstop & _)]); [discriminate|].
      destruct (expand_from_fields c adj l st2) as (Hd' & Hm' & _).
      rewrite Hpd in Hn, Hd. rewrite Hpm in Hm, Hstop.
      assert (Hs : N.of_nat (size (done st2)) < max_reach_ st).
      { rewrite Hd, size_settle by assumption.
        assert (N.of_nat (size (done st2)) <> max_reach_ st)
          by (intros Heq; apply Hstop in Heq; discriminate).
        rewrite Hd, size_settle in H by assumption. lia. }
      apply IH in Hrun; rewrite ?Hd', ?Hm', ?Hm in *; [exact Hrun | exact Hs].
    + destruct Hf as (_ & Hm & _ & [(_ & _ & ->) | (Hn & Hd & Hstop & _)]).
      * apply IH in Hrun; rewrite ?Hpd, ?Hpm in *; [exact Hrun | exact Hlt].
      * rewrite Hpd in Hn, Hd. rewrite Hpm in Hm, Hstop.
        assert (Hs : N.of_nat (size (done st2)) < max_reach_ st).
        { assert (N.of_nat (size (done st2)) <> max_reach_ st)
            by (intros Heq; apply Hstop in Heq; discriminate).
          rewrite Hd, size_settle in H |- * by assumption. lia. }
        apply IH in Hrun; rewrite ?Hm in *; [exact Hrun | exact Hs].
    + injection Hrun as <- <-.
      destruct Hf as (_ & Hm & _ & [(_ & Hr & _) | (Hn & Hd & Hstop & _)]); [discriminate|].
      rewrite Hpm in Hm, Hstop. rewrite Hm. split; [reflexivity|].
      split; [intros _; apply Hstop; reflexivity | congruence].
Qed.

Lemma frontier_cons (st : ReachState) (l : EdgeLabel) (rest : list EdgeLabel) (y : N) :
  adjacency st = l :: rest ->
  y ∈ frontier_edges st <-> y = lbl_edge l \/ y ∈ lbl_edge <$> rest.
Proof. unfold frontier_edges. intros ->. simpl. apply elem_of_cons. Qed.

Lemma frontier_of (st : ReachState) (rest : list EdgeLabel) (y : N) :
  adjacency st = rest -> y ∈ frontier_edges st <-> y ∈ lbl_edge <$> rest.
Proof. unfold frontier_edges. intros ->. reflexivity. Qed.

Section Reachability.
Variable mode : ReachMode.
Variable c : DynamicCost.
Variable adj : N -> list N.

(** A set of edges closed under the allowed successors of the expansion. *)
Definition closed_under (P : N -> Prop) : Prop :=
  forall x, P x -> forall y, y ∈ adj x -> Allowed c y = true -> P y.

(** Every edge an expansion settles lies in every closed set holding the
    edges it started from. *)
Lemma expand_loop_within (P : N -> Prop) (fuel : nat) (st : ReachState)
  (o : Outcome) (st' : ReachState) :
  closed_under P ->
  expand_loop fuel mode c adj st = (o, st') ->
  (forall x, x ∈ done st -> P x) ->
  (forall x, x ∈ frontier_edges st -> P x) ->
  forall x, x ∈ done st' -> P x.
Proof.
  intros Hcl. revert st. induction fuel as [|n IH]; intros st Hrun Hd0 Hf0.
  - injection Hrun as <- <-. exact Hd0.
  - loop_step Hrun.
    + injection Hrun as <- <-. exact Hd0.
    + destruct Hf as (_ & _ & Ha & [(_ & Hr & _) | (_ & Hd & _)]); [discriminate|].
      rewrite Hpa in Ha. rewrite Hpd in Hd.
      assert (Hl : P (lbl_edge l)) by (apply Hf0; apply (frontier_cons st l rest); auto).
      destruct (expand_from_fields c adj l st2) as (Hd' & _ & _).
      apply (IH _ Hrun).
      * rewrite Hd', Hd. intros x Hx. apply elem_of_union in Hx as [Hx | Hx].
        -- apply elem_of_singleton in Hx. subst. exact Hl.
        -- auto.
      * intros x Hx. apply expand_from_frontier in Hx as [Hx | [Hx Hal]].
        -- apply (frontier_of st2 rest) in Hx; [|exact Ha].
           apply Hf0. apply (frontier_cons st l rest); auto.
        -- exact (Hcl _ Hl _ Hx Hal).
    + destruct Hf as (_ & _ & Ha & Hcase). rewrite Hpa in Ha.
      assert (Hl : P (lbl_edge l)) by (apply Hf0; apply (frontier_cons st l rest); auto).
      apply (IH _ Hrun).
      * destruct Hcase as [(_ & _ & ->) | (_ & Hd & _)].
        -- rewrite Hpd. exact Hd0.
        -- rewrite Hd, Hpd. intros x Hx. apply elem_of_union in Hx as [Hx | Hx].
           ++ apply elem_of_singleton in Hx. subst. exact Hl.
           ++ auto.
      * intros x Hx. apply (frontier_of st2 rest) in Hx; [|exact Ha].
        apply Hf0. apply (frontier_cons st l rest); auto.
    + injection Hrun as <- <-.
      destruct Hf as (_ & _ & _ & [(_ & Hr & _) | (_ & Hd & _)]); [discriminate|].
      rewrite Hd, Hpd. intros x Hx. apply elem_of_union in Hx as [Hx | Hx].
      * apply elem_of_singleton in Hx. subst.
        apply Hf0. apply (frontier_cons st l rest); auto.
      * auto.
Qed.
End Reachability.

Section Exhaustion.
Variable mode : ReachMode.
Variable c : DynamicCost.
Variable adj : N -> list N.

(** An edge is covered when it is settled or has a label in the frontier. *)
Definition covered (st : ReachState) (y : N) : Prop :=
  y ∈ done st \/ y ∈ frontier_edges st.

(** Every allowed successor of a settled edge is covered. *)
Definition settled_closed (st : ReachState) : Prop :=
  forall x, x ∈ done st -> forall y, y ∈ adj x -> Allowed c y = true -> covered st y.

Lemma expand_loop_exhausted_frontier (fuel : nat) (st st' : ReachState) :
  expand_loop fuel mode c adj st = (exhausted, st') -> adjacency st' = [].
Proof.
  revert st. induction fuel as [|n IH]; intros st Hrun.
  - discriminate.
  - loop_step Hrun.
    + injection Hrun as <-. exact Hadj.
    + exact (IH _ Hrun).
    + exact (IH _ Hrun).
    + discriminate.
Qed.

Lemma expand_loop_covered (fuel : nat) (st : ReachState) (o : Outcome) (st' : ReachState) (y : N) :
  expand_loop fuel mode c adj st = (o, st') -> covered st y -> covered st' y.
Proof.
  unfold covered. revert st. induction fuel as [|n IH]; intros st Hrun Hy.
  - injection Hrun as <- <-. exact Hy.
  - loop_step Hrun.
    + injection Hrun as <- <-. exact Hy.
    + destruct Hf as (_ & _ & Ha & [(_ & Hr & _) | (_ & Hd & _)]); [discriminate|].
      rewrite Hpa in Ha. rewrite Hpd in Hd.
      destruct (expand_from_fields c adj l st2) as (Hd' & _ & _).
      apply (IH _ Hrun). rewrite Hd', Hd, expand_from_frontier, (frontier_of st2 rest) by exact Ha.
      rewrite (frontier_cons st l rest) in Hy by exact Hadj. set_solver.
    + destruct Hf as (_ & _ & Ha & Hcase). rewrite Hpa in Ha.
      apply (IH _ Hrun). rewrite (frontier_of st2 rest) by exact Ha.
      rewrite (frontier_cons st l rest) in Hy by exact Hadj.
      destruct Hcase as [(Hin & _ & ->) | (_ & Hd & _)].
      * rewrite Hpd in *. set_solver.
      * rewrite Hd, Hpd. set_solver.
    + injection Hrun as <- <-.
      destruct Hf as (_ & _ & Ha & [(_ & Hr & _) | (_ & Hd & _)]); [discriminate|].
      rewrite Hpa in Ha. rewrite (frontier_of st2 rest) by exact Ha.
      rewrite (frontier_cons st l rest) in Hy by exact Hadj.
      rewrite Hd, Hpd. set_solver.
Qed.
End Exhaustion.

(** In the exact pass every settled edge has its allowed successors
    covered, unless the expansion stopped at the threshold. *)
Lemma expand_loop_exact_closed (c : DynamicCost) (adj : N -> list N) (fuel : nat)
  (st : ReachState) (o : Outcome) (st' : ReachState) :
  expand_loop fuel exact_mode c adj st = (o, st') -> o <> saturated ->
  settled_closed c adj st -> settled_closed c adj st'.
Proof.
  unfold settled_closed, covered. revert st. induction fuel as [|n IH]; intros st Hrun Ho Hcl.
  - injection Hrun as <- <-. exact Hcl.
  - loop_step Hrun.
    + injection Hrun as <- <-. exact Hcl.
    + destruct Hf as (_ & _ & Ha & [(_ & Hr & _) | (_ & Hd & _)]); [discriminate|].
      rewrite Hpa in Ha. rewrite Hpd in Hd.
      destruct (expand_from_fields c adj l st2) as (Hd' & _ & _).
      apply (IH _ Hrun Ho). intros x Hx y Hy Hal.
      rewrite Hd', Hd, expand_from_frontier, (frontier_of st2 rest) by exact Ha.
      rewrite Hd', Hd in Hx. apply elem_of_union in Hx as [Hx | Hx].
      * apply elem_of_singleton in Hx. subst x. right. right. auto.
      * destruct (Hcl x Hx y Hy Hal) as [Hy' | Hy']; [set_solver|].
        rewrite (frontier_cons st l rest) in Hy' by exact Hadj. set_solver.
    + destruct Hf as (_ & _ & Ha & Hcase). rewrite Hpa in Ha.
      destruct Hcase as [(Hin & _ & ->) | (_ & _ & _ & Hex & _)];
        [| destruct (Hex eq_refl); discriminate].
      apply (IH _ Hrun Ho). intros x Hx y Hy Hal.
      rewrite Hpd in Hx, Hin |- *. rewrite (frontier_of _ rest) by exact Hpa.
      destruct (Hcl x Hx y Hy Hal) as [Hy' | Hy']; [set_solver|].
      rewrite (frontier_cons st l rest) in Hy' by exact Hadj. set_solver.
    + injection Hrun as <- <-. congruence.
Qed.

(** Running an expansion from a cleared state seeded with [s]. *)
Definition seeded (c : DynamicCost) (s : N) (st : ReachState) : ReachState :=
  push_label (Clear st) (make_label c 0 s).

Lemma seeded_fields (c : DynamicCost) (s : N) (st : ReachState) :
  done (seeded c s st) = ∅ /\ queue (seeded c s st) = {[s]} /\
  max_reach_ (seeded c s st) = max_reach_ st /\
  adjacency (seeded c s st) = [make_label c 0 s] /\ provisional (seeded c s st) = false.
Proof. unfold seeded, push_label, Clear. simpl. rewrite union_empty_r_L. auto. Qed.

(** An exact expansion that exhausts its frontier has settled a set that
    holds the seed and is closed under allowed successors. *)
Lemma exact_exhausted_closed (fuel : nat) (c : DynamicCost) (adj : N -> list N)
  (s : N) (st st' : ReachState) :
  expand_loop fuel exact_mode c adj (seeded c s st) = (exhausted, st') ->
  s ∈ done st' /\ closed_under c adj (fun x => x ∈ done st').
Proof.
  intros Hrun.
  pose proof (expand_loop_exhausted_frontier _ _ _ _ _ _ Hrun) as Hnil.
  assert (Hfe : forall y, y ∉ frontier_edges st')
    by (intros y; unfold frontier_edges; rewrite Hnil; simpl; set_solver).
  destruct (seeded_fields c s st) as (Hd0 & _ & _ & Ha0 & _).
  split.
  - assert (Hc : covered st' s).
    { apply (expand_loop_covered _ _ _ _ _ _ _ _ Hrun).
      right. unfold frontier_edges. rewrite Ha0. simpl. set_solver. }
    destruct Hc as [Hc | Hc]; [exact Hc | destruct (Hfe _ Hc)].
  - assert (Hcl : settled_closed c adj st').
    { apply (expand_loop_exact_closed _ _ _ _ _ _ Hrun); [discriminate|].
      intros x Hx. rewrite Hd0 in Hx. set_solver. }
    intros x Hx y Hy Hal. destruct (Hcl x Hx y Hy Hal) as [H | H]; [exact H | destruct (Hfe _ H)].
Qed.

(** The conservative pass never settles more edges than the exact pass,
    provided the exact pass ran to its end. *)
Lemma conservative_le_exact_loop (fuel1 fuel2 : nat) (c : DynamicCost) (adj : N -> list N)
  (s : N) (st1 st2 : ReachState) (t : N) (o1 o2 : Outcome) (st1' st2' : ReachState) :
  0 < t -> max_reach_ st1 = t -> max_reach_ st2 = t ->
  expand_loop fuel1 conservative c adj (seeded c s st1) = (o1, st1') ->
  expand_loop fuel2 exact_mode c adj (seeded c s st2) = (o2, st2') ->
  o2 <> out_of_fuel ->
  settled_count st1' <= settled_count st2'.
Proof.
  intros Ht Hm1 Hm2 Hr1 Hr2 Ho2.
  destruct (seeded_fields c s st1) as (Hd1 & _ & Hs1 & Ha1 & _).
  destruct (seeded_fields c s st2) as (Hd2 & _ & Hs2 & Ha2 & _).
  assert (H0 : forall st, done st = ∅ -> max_reach_ st = t -> settled_count st < t)
    by (intros st Hd Hm; unfold settled_count; rewrite Hd, size_empty; simpl; lia).
  destruct (expand_loop_count _ _ _ _ _ _ _ Hr1) as (_ & Hsat1 & Hlt1);
    [rewrite Hs1, Hm1; apply H0; auto; congruence|].
  destruct (expand_loop_count _ _ _ _ _ _ _ Hr2) as (_ & Hsat2 & Hlt2);
    [rewrite Hs2, Hm2; apply H0; auto; congruence|].
  rewrite Hs1, Hm1 in Hsat1, Hlt1. rewrite Hs2, Hm2 in Hsat2, Hlt2.
  assert (Hle1 : settled_count st1' <= t)
    by (destruct o1; [rewrite Hsat1 by reflexivity; lia | |];
        apply N.lt_le_incl, Hlt1; discriminate).
  destruct o2; [rewrite Hsat2 by reflexivity; exact Hle1 | | contradiction].
  destruct (exact_exhausted_closed _ _ _ _ _ _ Hr2) as (Hs & Hcl).
  assert (Hsub : done st1' ⊆ done st2').
  { intros x Hx. apply (expand_loop_within _ c adj (fun x => x ∈ done st2') _ _ _ _ Hcl Hr1);
      [ rewrite Hd1; set_solver
      | intros y Hy; unfold frontier_edges in Hy; rewrite Ha1 in Hy; simpl in Hy; set_solver
      | exact Hx ]. }
  unfold settled_count. apply subseteq_size in Hsub. lia.
Qed.

(** An expansion depends on the instance state only through [max_reach_]:
    it starts by clearing the rest. *)
Lemma Expand_indep (fuel : nat) (mode : ReachMode) (reader : GraphReader) (c : DynamicCost)
  (ty : ExpansionType) (edge_id : N) (st : ReachState) :
  Expand fuel mode reader c ty edge_id st =
  Expand fuel mode reader c ty edge_id (set_max_reach fresh_state (max_reach_ st)).
Proof. reflexivity. Qed.

Lemma Expand_max_reach (fuel : nat) (mode : ReachMode) (reader : GraphReader) (c : DynamicCost)
  (ty : ExpansionType) (edge_id : N) (st : ReachState) (o : Outcome) (st' : ReachState) :
  Expand fuel mode reader c ty edge_id st = (o, st') -> max_reach_ st' = max_reach_ st.
Proof.
  unfold Expand. intros H. apply expand_loop_done_grows in H as [_ H].
  rewrite H. reflexivity.
Qed.

(** ** The reported counts *)

(** One expansion of direction [ty] with threshold [t]; by [Expand_indep]
    any instance state gives the same run. *)
Definition direction_run (fuel : nat) (mode : ReachMode) (reader : GraphReader)
  (c : DynamicCost) (ty : ExpansionType) (edge_id t : N) : Outcome * ReachState :=
  Expand fuel mode reader c ty edge_id (set_max_reach fresh_state t).

(** The value [operator()] reports for one direction. *)
Definition reported_count (fuel : nat) (reader : GraphReader) (c : DynamicCost)
  (ty : ExpansionType) (edge_id t : N) (requested : bool) : N :=
  if requested then
    let s1 := snd (direction_run fuel conservative reader c ty edge_id t) in
    if needs_exact s1 t
    then bitfield16 (settled_count (snd (direction_run fuel exact_mode reader c ty edge_id t)))
    else bitfield16 (settled_count s1)
  else 0.

Lemma bitfield16_idem (v : N) : bitfield16 (bitfield16 v) = bitfield16 v.
Proof. unfold bitfield16. apply N.Div0.mod_mod. Qed.

Lemma Expand_run (fuel : nat) (mode : ReachMode) (reader : GraphReader) (c : DynamicCost)
  (ty : ExpansionType) (edge_id t : N) (st : ReachState) :
  max_reach_ st = t ->
  Expand fuel mode reader c ty edge_id st = direction_run fuel mode reader c ty edge_id t.
Proof. intros <-. apply Expand_indep. Qed.

Lemma exact_fields (st : ReachState) (reader : GraphReader) (c : DynamicCost)
  (edge : option DirectedEdge) (edge_id t direction : N) (fuel : nat) :
  fst (exact st reader c edge edge_id t direction fuel) =
  mk_directed_reach
    (if has_dir direction kOutbound
     then bitfield16 (settled_count (snd (direction_run fuel exact_mode reader c forward edge_id t)))
     else 0)
    (if has_dir direction kInbound
     then bitfield16 (settled_count (snd (direction_run fuel exact_mode reader c reverse edge_id t)))
     else 0).
Proof.
  unfold exact.
  destruct (has_dir direction kOutbound) eqn:Ho.
  - rewrite (Expand_run _ _ _ _ _ _ t) by reflexivity.
    destruct (direction_run fuel exact_mode reader c forward edge_id t) as [o1 s1] eqn:H1.
    assert (Hm1 : max_reach_ s1 = t)
      by (unfold direction_run in H1; apply Expand_max_reach in H1; exact H1).
    destruct (has_dir direction kInbound).
    + rewrite (Expand_run _ _ _ _ _ _ t) by exact Hm1.
      destruct (direction_run fuel exact_mode reader c reverse edge_id t). reflexivity.
    + reflexivity.
  - destruct (has_dir direction kInbound).
    + rewrite (Expand_run _ _ _ _ _ _ t) by reflexivity.
      destruct (direction_run fuel exact_mode reader c reverse edge_id t). reflexivity.
    + reflexivity.
Qed.

Lemma reach_op_fields (st : ReachState) (reader : GraphReader) (c : DynamicCost)
  (edge : option DirectedEdge) (edge_id t direction : N) (fuel : nat) :
  valid_input reader edge edge_id t = true ->
  fst (reach_op st reader c edge edge_id t direction fuel) =
  Some (mk_directed_reach
          (reported_count fuel reader c forward edge_id t (has_dir direction kOutbound))
          (reported_count fuel reader c reverse edge_id t (has_dir direction kInbound))).
Proof.
  intros Hv. unfold reach_op, reported_count. rewrite Hv. simpl negb. cbv iota.
  assert (Hfin : forall (r : directed_reach) (s : ReachState), max_reach_ s = t ->
    fst (if has_dir direction kInbound then
           let '(_, st1) := Expand fuel conservative reader c reverse edge_id s in
           if needs_exact st1 t then
             let '(x, st2) := exact (Clear st1) reader c edge edge_id t kInbound fuel in
             (Some (set_inbound r (inbound x)), st2)
           else (Some (set_inbound r (settled_count st1)), Clear st1)
         else (Some r, s)) =
    Some (mk_directed_reach (outbound r)
      (if has_dir direction kInbound then
         let s1 := snd (direction_run fuel conservative reader c reverse edge_id t) in
         if needs_exact s1 t
         then bitfield16 (settled_count (snd (direction_run fuel exact_mode reader c reverse edge_id t)))
         else bitfield16 (settled_count s1)
       else inbound r))).
  { intros r s Hs. destruct (has_dir direction kInbound); [|destruct r; reflexivity].
    rewrite (Expand_run _ _ _ _ _ _ t) by exact Hs.
    destruct (direction_run fuel conservative reader c reverse edge_id t) as [o1 s1]. cbn [snd].
    destruct (needs_exact s1 t).
    - pose proof (exact_fields (Clear s1) reader c edge edge_id t kInbound fuel) as He.
      destruct (exact (Clear s1) reader c edge edge_id t kInbound fuel) as [x s2]. simpl in He |- *.
      subst x. simpl. unfold set_inbound. rewrite bitfield16_idem. reflexivity.
    - reflexivity. }
  destruct (has_dir direction kOutbound).
  - rewrite (Expand_run _ _ _ _ _ _ t) by reflexivity.
    destruct (direction_run fuel conservative reader c forward edge_id t) as [o1 s1] eqn:H1.
    assert (Hm1 : max_reach_ s1 = t)
      by (unfold direction_run in H1; apply Expand_max_reach in H1; exact H1).
    cbn [snd]. destruct (needs_exact s1 t).
    + pose proof (exact_fields (Clear s1) reader c edge edge_id t kOutbound fuel) as He.
      destruct (exact (Clear s1) reader c edge edge_id t kOutbound fuel) as [x s2] eqn:Hx. simpl in He.
      assert (Hm2 : max_reach_ s2 = t).
      { unfold exact in Hx. simpl in Hx.
        destruct (Expand fuel exact_mode reader c forward edge_id (set_max_reach (Clear s1) t))
          as [o2 s3] eqn:H3.
        injection Hx as _ <-. apply Expand_max_reach in H3. exact H3. }
      rewrite (Hfin _ _ Hm2). subst x. simpl. rewrite bitfield16_idem.
      destruct (has_dir direction kInbound); reflexivity.
    + rewrite (Hfin _ (Clear s1) Hm1). simpl. destruct (has_dir direction kInbound); reflexivity.
  - rewrite (Hfin _ (set_max_reach st t) eq_refl). simpl. destruct (has_dir direction kInbound); reflexivity.
Qed.

Lemma bitfield16_le (v : N) : bitfield16 v <= v.
Proof. unfold bitfield16. apply N.Div0.mod_le. Qed.

Lemma bitfield16_lt (v : N) : bitfield16 v < 65536.
Proof. unfold bitfield16. apply N.mod_lt. discriminate. Qed.

(** The settled count of one expansion never exceeds a positive threshold. *)
Lemma direction_run_le (fuel : nat) (mode : ReachMode) (reader : GraphReader) (c : DynamicCost)
  (ty : ExpansionType) (edge_id t : N) :
  0 < t -> settled_count (snd (direction_run fuel mode reader c ty edge_id t)) <= t.
Proof.
  intros Ht. unfold direction_run, Expand.
  destruct (expand_loop _ _ _ _ _) as [o s] eqn:H. simpl.
  destruct (seeded_fields c edge_id (set_max_reach fresh_state t)) as (Hd & _ & Hm & _).
  unfold seeded in Hd, Hm.
  apply expand_loop_count in H as (_ & Hsat & Hlt);
    [| unfold settled_count; rewrite Hd, Hm, size_empty; simpl; exact Ht].
  rewrite Hm in Hsat, Hlt. simpl in Hsat, Hlt.
  destruct o; [rewrite Hsat by reflexivity; lia | |];
    apply N.lt_le_incl, Hlt; discriminate.
Qed.

Lemma reported_count_le (fuel : nat) (reader : GraphReader) (c : DynamicCost)
  (ty : ExpansionType) (edge_id t : N) (requested : bool) :
  0 < t -> reported_count fuel reader c ty edge_id t requested <= t.
Proof.
  intros Ht. unfold reported_count.
  destruct requested; [|lia].
  destruct (needs_exact _ t);
    (eapply N.le_trans; [apply bitfield16_le | apply direction_run_le; exact Ht]).
Qed.

Lemma valid_input_intro (reader : GraphReader) (edge : option DirectedEdge) (edge_id t : N) :
  edge <> None -> resolves reader edge_id = true -> 1 <= t ->
  valid_input reader edge edge_id t = true.
Proof.
  intros He Hr Ht. unfold valid_input. destruct edge; [|congruence].
  rewrite Hr. simpl. destruct (N.eqb_spec t 0); [lia | reflexivity].
Qed.

Lemma valid_input_pos (reader : GraphReader) (edge : option DirectedEdge) (edge_id t : N) :
  valid_input reader edge edge_id t = true -> 0 < t.
Proof.
  unfold valid_input. destruct edge; [|discriminate].
  destruct (N.eqb_spec t 0); rewrite ?andb_false_r; [discriminate | lia].
Qed.

(** ** Claims *)

(** C1: for a valid edge, a threshold [max_reach >= 1] and any direction
    mask, [operator()] returns a result whose [outbound] and [inbound]
    fields (natural numbers) are both at most [max_reach]. *)
Theorem C1_reach_bounded (st : ReachState) (reader : GraphReader) (c : DynamicCost)
  (edge : option DirectedEdge) (edge_id max_reach direction : N) (fuel : nat) :
  edge <> None -> resolves reader edge_id = true -> 1 <= max_reach ->
  exists r, fst (reach_op st reader c edge edge_id max_reach direction fuel) = Some r /\
            outbound r <= max_reach /\ inbound r <= max_reach.
Proof.
  intros He Hr Ht. pose proof (valid_input_intro _ _ _ _ He Hr Ht) as Hv.
  rewrite (reach_op_fields _ _ _ _ _ _ _ _ Hv).
  eexists. split; [reflexivity|]. simpl.
  split; apply reported_count_le; lia.
Qed.

Lemma C1_witness :
  exists r, fst (reach_op fresh_state (chain 4) (unit_cost (fun e => e =? 3)) some_edge 2 3 3 100)
            = Some r /\ outbound r <= 3 /\ inbound r <= 3.
Proof. apply C1_reach_bounded; [discriminate | reflexivity | lia]. Defined.

(** C2: for every edge and threshold and each direction, the conservative
    expansion settles at most as many edges as the exact expansion (run to
    its end); and when the conservative expansion of a requested direction
    ends below [max_reach] after pruning a restriction-skippable edge
    ([needs_exact]), the count [operator()] returns for that direction is
    the one [exact] returns. *)
Theorem C2_conservative_exact (st : ReachState) (reader : GraphReader) (c : DynamicCost)
  (edge : option DirectedEdge) (edge_id max_reach direction : N) (fuel : nat) :
  valid_input reader edge edge_id max_reach = true ->
  (forall ty : ExpansionType,
     fst (direction_run fuel exact_mode reader c ty edge_id max_reach) <> out_of_fuel ->
     settled_count (snd (direction_run fuel conservative reader c ty edge_id max_reach)) <=
     settled_count (snd (direction_run fuel exact_mode reader c ty edge_id max_reach))) /\
  (has_dir direction kOutbound = true ->
   needs_exact (snd (direction_run fuel conservative reader c forward edge_id max_reach)) max_reach = true ->
   exists r, fst (reach_op st reader c edge edge_id max_reach direction fuel) = Some r /\
     outbound r = outbound (fst (exact st reader c edge edge_id max_reach kOutbound fuel))) /\
  (has_dir direction kInbound = true ->
   needs_exact (snd (direction_run fuel conservative reader c reverse edge_id max_reach)) max_reach = true ->
   exists r, fst (reach_op st reader c edge edge_id max_reach direction fuel) = Some r /\
     inbound r = inbound (fst (exact st reader c edge edge_id max_reach kInbound fuel))).
Proof.
  intros Hv. pose proof (valid_input_pos _ _ _ _ Hv) as Ht.
  rewrite (reach_op_fields _ _ _ _ _ _ _ _ Hv), !exact_fields.
  split; [|split].
  - intros ty Hfin. unfold direction_run, Expand in *.
    destruct (expand_loop fuel conservative _ _ _) as [o1 s1] eqn:H1.
    destruct (expand_loop fuel exact_mode _ _ _) as [o2 s2] eqn:H2. simpl in *.
    exact (conservative_le_exact_loop fuel fuel c (adjacent reader ty) edge_id
             (set_max_reach fresh_state max_reach) (set_max_reach fresh_state max_reach)
             max_reach o1 o2 s1 s2 Ht eq_refl eq_refl H1 H2 Hfin).
  - intros Hd Hn. eexists. split; [reflexivity|]. simpl.
    unfold reported_count. rewrite Hd, Hn. reflexivity.
  - intros Hd Hn. eexists. split; [reflexivity|]. simpl.
    unfold reported_count. rewrite Hd, Hn. reflexivity.
Qed.

Lemma C2_witness :
  valid_input (chain 4) some_edge 2 10 = true /\
  ((forall ty : ExpansionType,
     fst (direction_run 100 exact_mode (chain 4) (unit_cost (fun e => e =? 3)) ty 2 10) <> out_of_fuel ->
     settled_count (snd (direction_run 100 conservative (chain 4) (unit_cost (fun e => e =? 3)) ty 2 10)) <=
     settled_count (snd (direction_run 100 exact_mode (chain 4) (unit_cost (fun e => e =? 3)) ty 2 10))) /\
  (has_dir 3 kOutbound = true ->
   needs_exact (snd (direction_run 100 conservative (chain 4) (unit_cost (fun e => e =? 3)) forward 2 10)) 10 = true ->
   exists r, fst (reach_op fresh_state (chain 4) (unit_cost (fun e => e =? 3)) some_edge 2 10 3 100) = Some r /\
     outbound r = outbound (fst (exact fresh_state (chain 4) (unit_cost (fun e => e =? 3)) some_edge 2 10 kOutbound 100))) /\
  (has_dir 3 kInbound = true ->
   needs_exact (snd (direction_run 100 conservative (chain 4) (unit_cost (fun e => e =? 3)) reverse 2 10)) 10 = true ->
   exists r, fst (reach_op fresh_state (chain 4) (unit_cost (fun e => e =? 3)) some_edge 2 10 3 100) = Some r /\
     inbound r = inbound (fst (exact fresh_state (chain 4) (unit_cost (fun e => e =? 3)) some_edge 2 10 kInbound 100)))).
Proof. split; [reflexivity|]. apply C2_conservative_exact. reflexivity. Defined.

(** The fallback really fires on the chain with a skippable edge 3: the
    conservative forward pass from edge 2 stops at 2 edges, the exact pass
    and the returned count reach 3. *)
Example restricted_branch :
  settled_count (snd (direction_run 100 conservative (chain 4) (unit_cost (fun e => e =? 3)) forward 2 10)) = 2 /\
  needs_exact (snd (direction_run 100 conservative (chain 4) (unit_cost (fun e => e =? 3)) forward 2 10)) 10 = true /\
  fst (reach_op fresh_state (chain 4) (unit_cost (fun e => e =? 3)) some_edge 2 10 kOutbound 100) =
    Some (mk_directed_reach 3 0).
Proof. vm_compute. auto. Qed.

(** C3: [ShouldExpand] on an edge that is already settled answers prune and
    leaves the state (in particular the settled set and its count)
    unchanged; on an edge not yet settled it inserts it, raising the count
    by exactly one.  So no edge is inserted twice. *)
Theorem C3_settled_at_most_once (mode : ReachMode) (st : ReachState) (l : EdgeLabel)
  (r : ExpansionRecommendation) (st2 : ReachState) :
  ShouldExpand mode st l = (r, st2) ->
  (lbl_edge l ∈ done st -> r = prune_expansion /\ st2 = st /\ settled_count st2 = settled_count st) /\
  (lbl_edge l ∉ done st ->
     done st2 = {[lbl_edge l]} ∪ done st /\ size (done st2) = S (size (done st))).
Proof.
  intros H. pose proof (ShouldExpand_fields _ _ _ _ _ H) as (_ & _ & _ & Hcase).
  split.
  - intros Hin. destruct Hcase as [(_ & Hr & ->) | (Hn & _)]; [auto | contradiction].
  - intros Hn. destruct Hcase as [(Hin & _) | (_ & Hd & _)]; [contradiction|].
    rewrite Hd. split; [reflexivity | apply size_settle; exact Hn].
Qed.

Lemma C3_witness :
  ShouldExpand exact_mode (mkReachState ∅ {[7]} 10 [] false) (mkEdgeLabel 7 0 false) =
    (prune_expansion, mkReachState ∅ {[7]} 10 [] false) /\
  ((lbl_edge (mkEdgeLabel 7 0 false) ∈ done (mkReachState ∅ {[7]} 10 [] false) ->
    prune_expansion = prune_expansion /\
    mkReachState ∅ {[7]} 10 [] false = mkReachState ∅ {[7]} 10 [] false /\
    settled_count (mkReachState ∅ {[7]} 10 [] false) = settled_count (mkReachState ∅ {[7]} 10 [] false)) /\
   (lbl_edge (mkEdgeLabel 7 0 false) ∉ done (mkReachState ∅ {[7]} 10 [] false) ->
    done (mkReachState ∅ {[7]} 10 [] false) =
      {[lbl_edge (mkEdgeLabel 7 0 false)]} ∪ done (mkReachState ∅ {[7]} 10 [] false) /\
    size (done (mkReachState ∅ {[7]} 10 [] false)) =
      S (size (done (mkReachState ∅ {[7]} 10 [] false))))).
Proof.
  assert (H : ShouldExpand exact_mode (mkReachState ∅ {[7]} 10 [] false) (mkEdgeLabel 7 0 false) =
    (prune_expansion, mkReachState ∅ {[7]} 10 [] false)) by (vm_compute; reflexivity).
  split; [exact H | exact (C3_settled_at_most_once _ _ _ _ _ H)].
Defined.

(** C4: when settling the popped edge brings the settled count to
    [max_reach_], [ShouldExpand] answers stop and the expansion ends at once
    (outcome [saturated], whatever remains in the frontier and of the loop's
    budget), with the count equal to the threshold. *)
Theorem C4_stop_at_threshold (fuel : nat) (mode : ReachMode) (c : DynamicCost)
  (adj : N -> list N) (st : ReachState) (l : EdgeLabel) (rest : list EdgeLabel) :
  adjacency st = l :: rest -> lbl_edge l ∉ done st ->
  N.of_nat (size ({[lbl_edge l]} ∪ done st)) = max_reach_ st ->
  let st' := set_done (pop_label st l rest) ({[lbl_edge l]} ∪ done st) in
  ShouldExpand mode (pop_label st l rest) l = (stop_expansion, st') /\
  expand_loop (S fuel) mode c adj st = (saturated, st') /\
  settled_count st' = max_reach_ st.
Proof.
  intros Hadj Hn Hsz st'.
  assert (Hse : ShouldExpand mode (pop_label st l rest) l = (stop_expansion, st')).
  { unfold ShouldExpand. simpl.
    destruct (decide (lbl_edge l ∈ done st)) as [Hin | _]; [contradiction|].
    simpl. rewrite Hsz, N.eqb_refl. reflexivity. }
  split; [exact Hse|]. split.
  - cbn [expand_loop]. rewrite Hadj, Hse. reflexivity.
  - exact Hsz.
Qed.

Lemma C4_witness :
  adjacency (mkReachState {[3]} {[1; 2]} 3 [mkEdgeLabel 3 5 false; mkEdgeLabel 4 6 false] false) =
    mkEdgeLabel 3 5 false :: [mkEdgeLabel 4 6 false] /\
  (lbl_edge (mkEdgeLabel 3 5 false) ∉ done (mkReachState {[3]} {[1; 2]} 3 [mkEdgeLabel 3 5 false; mkEdgeLabel 4 6 false] false)) /\
  N.of_nat (size ({[lbl_edge (mkEdgeLabel 3 5 false)]} ∪
     done (mkReachState {[3]} {[1; 2]} 3 [mkEdgeLabel 3 5 false; mkEdgeLabel 4 6 false] false))) =
    max_reach_ (mkReachState {[3]} {[1; 2]} 3 [mkEdgeLabel 3 5 false; mkEdgeLabel 4 6 false] false) /\
  (let st' := set_done (pop_label (mkReachState {[3]} {[1; 2]} 3 [mkEdgeLabel 3 5 false; mkEdgeLabel 4 6 false] false)
                          (mkEdgeLabel 3 5 false) [mkEdgeLabel 4 6 false])
                ({[lbl_edge (mkEdgeLabel 3 5 false)]} ∪
                   done (mkReachState {[3]} {[1; 2]} 3 [mkEdgeLabel 3 5 false; mkEdgeLabel 4 6 false] false)) in
   ShouldExpand conservative (pop_label (mkReachState {[3]} {[1; 2]} 3 [mkEdgeLabel 3 5 false; mkEdgeLabel 4 6 false] false)
                               (mkEdgeLabel 3 5 false) [mkEdgeLabel 4 6 false]) (mkEdgeLabel 3 5 false) =
     (stop_expansion, st') /\
   expand_loop 10 conservative (unit_cost (fun _ => false)) (succ_edges (chain 9))
     (mkReachState {[3]} {[1; 2]} 3 [mkEdgeLabel 3 5 false; mkEdgeLabel 4 6 false] false) = (saturated, st') /\
   settled_count st' =
     max_reach_ (mkReachState {[3]} {[1; 2]} 3 [mkEdgeLabel 3 5 false; mkEdgeLabel 4 6 false] false)).
Proof.
  assert (Hn : lbl_edge (mkEdgeLabel 3 5 false) ∉
    done (mkReachState {[3]} {[1; 2]} 3 [mkEdgeLabel 3 5 false; mkEdgeLabel 4 6 false] false))
    by (simpl; set_solver).
  split; [reflexivity|]. split; [exact Hn|]. split; [vm_compute; reflexivity|].
  apply (C4_stop_at_threshold 9); [reflexivity | exact Hn | vm_compute; reflexivity].
Defined.

(** The tracker is empty when [exact] has run a direction. *)
Lemma exact_end_empty (st : ReachState) (reader : GraphReader) (c : DynamicCost)
  (edge : option DirectedEdge) (edge_id t direction : N) (fuel : nat) :
  has_dir direction kOutbound || has_dir direction kInbound = true ->
  queue (snd (exact st reader c edge edge_id t direction fuel)) = ∅ /\
  done (snd (exact st reader c edge edge_id t direction fuel)) = ∅.
Proof.
  intros Hd. unfold exact.
  destruct (has_dir direction kOutbound), (has_dir direction kInbound); try discriminate;
    repeat match goal with
           | |- context [Expand ?a ?b ?c ?d ?e ?f ?g] => destruct (Expand a b c d e f g)
           end; split; reflexivity.
Qed.

(** The tracker is empty when [operator()] has run a direction. *)
Lemma reach_op_end_empty (st : ReachState) (reader : GraphReader) (c : DynamicCost)
  (edge : option DirectedEdge) (edge_id t direction : N) (fuel : nat) :
  valid_input reader edge edge_id t = true ->
  has_dir direction kOutbound || has_dir direction kInbound = true ->
  queue (snd (reach_op st reader c edge edge_id t direction fuel)) = ∅ /\
  done (snd (reach_op st reader c edge edge_id t direction fuel)) = ∅.
Proof.
  intros Hv Hd. unfold reach_op. rewrite Hv. cbn [negb].
  destruct (has_dir direction kOutbound), (has_dir direction kInbound); try discriminate;
    repeat match goal with
           | |- context [Expand ?a ?b ?c ?d ?e ?f ?g] => destruct (Expand a b c d e f g)
           | |- context [needs_exact ?s ?m] => destruct (needs_exact s m)
           | |- context [exact ?s ?r ?c ?e ?i ?m ?k ?f] =>
               let H := fresh "H" in
               pose proof (exact_end_empty s r c e i m k f eq_refl) as H;
               destruct (exact s r c e i m k f); simpl in H
           end; first [split; reflexivity | assumption].
Qed.

(** C5: the two sets of the tracker are empty at the start and at the end
    of every direction's expansion.  [Clear] empties them (and the
    frontier); every expansion, of [operator()] as of the exact fallback,
    starts from [Clear], so its run depends on the instance only through
    [max_reach_]; and once [operator()] (valid input) or [exact] has run a
    requested direction, both sets are empty again. *)
Theorem C5_cleared_before_each_expansion :
  (forall st : ReachState,
     queue (Clear st) = ∅ /\ done (Clear st) = ∅ /\ adjacency (Clear st) = []) /\
  (forall (fuel : nat) (mode : ReachMode) (reader : GraphReader) (c : DynamicCost)
     (ty : ExpansionType) (edge_id : N) (st : ReachState),
     Expand fuel mode reader c ty edge_id st =
     Expand fuel mode reader c ty edge_id (set_max_reach fresh_state (max_reach_ st))) /\
  (forall (st : ReachState) (reader : GraphReader) (c : DynamicCost)
     (edge : option DirectedEdge) (edge_id max_reach direction : N) (fuel : nat),
     valid_input reader edge edge_id max_reach = true ->
     has_dir direction kOutbound || has_dir direction kInbound = true ->
     queue (snd (reach_op st reader c edge edge_id max_reach direction fuel)) = ∅ /\
     done (snd (reach_op st reader c edge edge_id max_reach direction fuel)) = ∅) /\
  (forall (st : ReachState) (reader : GraphReader) (c : DynamicCost)
     (edge : option DirectedEdge) (edge_id max_reach direction : N) (fuel : nat),
     has_dir direction kOutbound || has_dir direction kInbound = true ->
     queue (snd (exact st reader c edge edge_id max_reach direction fuel)) = ∅ /\
     done (snd (exact st reader c edge edge_id max_reach direction fuel)) = ∅).
Proof.
  split; [intros st; auto|]. split; [apply Expand_indep|]. split.
  - intros st reader c edge edge_id max_reach direction fuel. apply reach_op_end_empty.
  - intros st reader c edge edge_id max_reach direction fuel. apply exact_end_empty.
Qed.

(** On the input of [restricted_branch], both directions requested (the
    outbound one through the exact fallback), the tracker ends empty; and
    so it does after [exact] alone. *)
Lemma C5_witness :
  valid_input (chain 4) some_edge 2 10 = true /\
  has_dir 3 kOutbound || has_dir 3 kInbound = true /\
  (queue (snd (reach_op fresh_state (chain 4) (unit_cost (fun e => e =? 3)) some_edge 2 10 3 100)) = ∅ /\
   done (snd (reach_op fresh_state (chain 4) (unit_cost (fun e => e =? 3)) some_edge 2 10 3 100)) = ∅) /\
  (queue (snd (exact fresh_state (chain 4) (unit_cost (fun e => e =? 3)) some_edge 2 10 kOutbound 100)) = ∅ /\
   done (snd (exact fresh_state (chain 4) (unit_cost (fun e => e =? 3)) some_edge 2 10 kOutbound 100)) = ∅).
Proof.
  destruct C5_cleared_before_each_expansion as (_ & _ & Hop & Hex).
  split; [reflexivity | split; [reflexivity | split]].
  - apply Hop; reflexivity.
  - apply Hex; reflexivity.
Defined.

Lemma reach_op_result_indep (st st' : ReachState) (reader : GraphReader) (c : DynamicCost)
  (edge : option DirectedEdge) (edge_id t direction : N) (fuel : nat) :
  fst (reach_op st reader c edge edge_id t direction fuel) =
  fst (reach_op st' reader c edge edge_id t direction fuel).
Proof.
  destruct (valid_input reader edge edge_id t) eqn:Hv.
  - rewrite !(reach_op_fields _ _ _ _ _ _ _ _ Hv). reflexivity.
  - unfold reach_op. rewrite Hv. reflexivity.
Qed.

(** C6: two sequential calls of [operator()] on the same instance with the
    same inputs give the same result. *)
Theorem C6_reuse_same_result (st : ReachState) (reader : GraphReader) (c : DynamicCost)
  (edge : option DirectedEdge) (edge_id max_reach direction : N) (fuel : nat) :
  let '(r1, st1) := reach_op st reader c edge edge_id max_reach direction fuel in
  fst (reach_op st1 reader c edge edge_id max_reach direction fuel) = r1.
Proof.
  destruct (reach_op st reader c edge edge_id max_reach direction fuel) as [r1 st1] eqn:H.
  rewrite (reach_op_result_indep st1 st), H. reflexivity.
Qed.

(** ** Expansions along a chain *)

Definition free_cost : DynamicCost := unit_cost (fun _ => false).

(** Along the chain [0 -> ... -> n] the forward exact expansion settles
    the edges one by one, so with enough budget it reaches any threshold
    [t <= n + 1] and stops there. *)
Lemma chain_run_saturates (mode : ReachMode) (n t : N) (fuel : nat) (st : ReachState)
  (l : EdgeLabel) :
  adjacency st = [l] -> lbl_skippable l = false ->
  (forall x, x ∈ done st -> x < lbl_edge l) ->
  N.of_nat (size (done st)) = lbl_edge l ->
  max_reach_ st = t -> lbl_edge l < t -> t <= n + 1 ->
  t <= lbl_edge l + N.of_nat fuel ->
  exists st', expand_loop fuel mode free_cost (succ_edges (chain n)) st = (saturated, st') /\
              settled_count st' = t.
Proof.
  revert st l. induction fuel as [|f IH]; intros st l Hadj Hsk Hlt Hsz Hm Hk Hn Hf.
  - simpl in Hf. lia.
  - set (k := lbl_edge l) in *.
    assert (Hnk : k ∉ done st) by (intros Hin; specialize (Hlt _ Hin); lia).
    assert (Hsz' : N.of_nat (size ({[k]} ∪ done st)) = k + 1)
      by (rewrite size_settle by exact Hnk; lia).
    cbn [expand_loop]. rewrite Hadj.
    unfold ShouldExpand at 1. cbn [pop_label done max_reach_ set_done].
    destruct (decide (lbl_edge l ∈ done st)) as [Hin | _]; [contradiction|].
    cbn [done max_reach_ set_done]. fold k. rewrite Hsz', Hm.
    destruct (N.eqb_spec (k + 1) t) as [Heq | Hne].
    + eexists. split; [reflexivity|]. unfold settled_count. simpl. fold k. lia.
    + assert (Hkn : (k <? n) = true) by (apply N.ltb_lt; lia).
      assert (Hmode : match mode with
                      | conservative =>
                          if lbl_skippable l
                          then (prune_expansion, set_provisional
                                  (set_done (pop_label st l []) ({[k]} ∪ done st)) true)
                          else (continue_expansion, set_done (pop_label st l []) ({[k]} ∪ done st))
                      | exact_mode => (continue_expansion, set_done (pop_label st l []) ({[k]} ∪ done st))
                      end = (continue_expansion, set_done (pop_label st l []) ({[k]} ∪ done st)))
        by (destruct mode; [rewrite Hsk|]; reflexivity).
      rewrite Hmode.
      unfold expand_from. cbn [succ_edges chain]. fold k. rewrite Hkn. simpl.
      apply (IH _ (make_label free_cost (lbl_cost l) (k + 1))); simpl;
        [reflexivity | reflexivity | | | exact Hm | unfold k in *; lia | lia | unfold k in *; lia].
      * intros x Hx. apply elem_of_union in Hx as [Hx | Hx].
        -- apply elem_of_singleton in Hx. fold k. lia.
        -- specialize (Hlt _ Hx). fold k. lia.
      * fold k. rewrite Hsz'. reflexivity.
Qed.

Lemma chain_forward_saturates (mode : ReachMode) (n t : N) (fuel : nat) :
  1 <= t -> t <= n + 1 -> t <= N.of_nat fuel ->
  fst (direction_run fuel mode (chain n) free_cost forward 0 t) = saturated /\
  settled_count (snd (direction_run fuel mode (chain n) free_cost forward 0 t)) = t.
Proof.
  intros H1 Hn Hf. unfold direction_run, Expand.
  destruct (chain_run_saturates mode n t fuel
              (push_label (Clear (set_max_reach fresh_state t)) (make_label free_cost 0 0))
              (make_label free_cost 0 0)) as (st' & Hrun & Hc);
    [reflexivity | reflexivity | simpl; set_solver | reflexivity | reflexivity | simpl; lia | lia
    | simpl; lia |].
  cbn [adjacent]. rewrite Hrun. auto.
Qed.

Lemma has_dir_kOutbound : has_dir kOutbound kOutbound = true.
Proof. reflexivity. Qed.

(** C7 (fails at the 16-bit boundary): on the chain [0 -> ... -> 65536],
    exact mode, seed 0, outbound.  At threshold 65535 [exact] reports 65535;
    at threshold 65536 the expansion settles 65536 edges but [exact]
    reports 0, since the count is stored in a 16-bit bitfield. *)
Theorem C7_exact_reach_wraps :
  outbound (fst (exact fresh_state (chain 65536) free_cost some_edge 0 65535 kOutbound
                   (N.to_nat 65536))) = 65535 /\
  outbound (fst (exact fresh_state (chain 65536) free_cost some_edge 0 65536 kOutbound
                   (N.to_nat 65536))) = 0 /\
  settled_count (snd (direction_run (N.to_nat 65536) exact_mode (chain 65536) free_cost forward 0 65536))
    = 65536.
Proof.
  rewrite !exact_fields, has_dir_kOutbound. cbn [outbound].
  destruct (chain_forward_saturates exact_mode 65536 65535 (N.to_nat 65536)) as [_ H1];
    [lia | lia | rewrite N2Nat.id; lia |].
  destruct (chain_forward_saturates exact_mode 65536 65536 (N.to_nat 65536)) as [_ H2];
    [lia | lia | rewrite N2Nat.id; lia |].
  rewrite H1, H2. split; [reflexivity | split; reflexivity].
Qed.

(** C8: requesting only the outbound direction leaves [inbound = 0], and
    requesting only the inbound direction leaves [outbound = 0]. *)
Theorem C8_direction_isolation (st : ReachState) (reader : GraphReader) (c : DynamicCost)
  (edge : option DirectedEdge) (edge_id max_reach : N) (fuel : nat) :
  valid_input reader edge edge_id max_reach = true ->
  (exists r, fst (reach_op st reader c edge edge_id max_reach kOutbound fuel) = Some r /\
             inbound r = 0) /\
  (exists r, fst (reach_op st reader c edge edge_id max_reach kInbound fuel) = Some r /\
             outbound r = 0).
Proof.
  intros Hv. rewrite !(reach_op_fields _ _ _ _ _ _ _ _ Hv).
  split; eexists; split; reflexivity.
Qed.

Lemma C8_witness :
  valid_input (chain 4) some_edge 2 10 = true /\
  (exists r, fst (reach_op fresh_state (chain 4) free_cost some_edge 2 10 kOutbound 100) = Some r /\
             inbound r = 0) /\
  (exists r, fst (reach_op fresh_state (chain 4) free_cost some_edge 2 10 kInbound 100) = Some r /\
             outbound r = 0).
Proof. split; [reflexivity|]. apply C8_direction_isolation. reflexivity. Defined.

(** C9: a null edge, an edge the reader does not resolve, or a zero
    threshold makes [operator()] fail its precondition check: it returns no
    [directed_reach]. *)
Theorem C9_invalid_input_fails (st : ReachState) (reader : GraphReader) (c : DynamicCost)
  (edge : option DirectedEdge) (edge_id max_reach direction : N) (fuel : nat) :
  edge = None \/ resolves reader edge_id = false \/ max_reach = 0 ->
  fst (reach_op st reader c edge edge_id max_reach direction fuel) = None.
Proof.
  intros H. unfold reach_op.
  assert (Hv : valid_input reader edge edge_id max_reach = false).
  { unfold valid_input. destruct edge; [|reflexivity].
    destruct H as [H | [H | H]]; [discriminate | rewrite H; reflexivity | subst; apply andb_false_r]. }
  rewrite Hv. reflexivity.
Qed.

Lemma C9_witness :
  fst (reach_op fresh_state (chain 4) free_cost None 2 10 3 100) = None /\
  fst (reach_op fresh_state (chain 4) free_cost some_edge 9 10 3 100) = None /\
  fst (reach_op fresh_state (chain 4) free_cost some_edge 2 0 3 100) = None.
Proof.
  split; [apply C9_invalid_input_fails; left; reflexivity|].
  split; [apply C9_invalid_input_fails; right; left; reflexivity|].
  apply C9_invalid_input_fails; right; right; reflexivity.
Defined.

Lemma reported_count_lt (fuel : nat) (reader : GraphReader) (c : DynamicCost)
  (ty : ExpansionType) (edge_id t : N) (requested : bool) :
  reported_count fuel reader c ty edge_id t requested < 65536.
Proof.
  unfold reported_count. destruct requested; [|lia].
  destruct (needs_exact _ t); apply bitfield16_lt.
Qed.

(** C10: every [directed_reach] returned by [operator()] has both fields
    below 2^16; hence for [max_reach >= 65536] neither field equals the
    threshold. *)
Theorem C10_fields_16bit (st : ReachState) (reader : GraphReader) (c : DynamicCost)
  (edge : option DirectedEdge) (edge_id max_reach direction : N) (fuel : nat) (r : directed_reach) :
  fst (reach_op st reader c edge edge_id max_reach direction fuel) = Some r ->
  outbound r < 65536 /\ inbound r < 65536 /\
  (65536 <= max_reach -> outbound r <> max_reach /\ inbound r <> max_reach).
Proof.
  intros H.
  destruct (valid_input reader edge edge_id max_reach) eqn:Hv;
    [| unfold reach_op in H; rewrite Hv in H; discriminate].
  rewrite (reach_op_fields _ _ _ _ _ _ _ _ Hv) in H. injection H as <-. simpl.
  pose proof (reported_count_lt fuel reader c forward edge_id max_reach (has_dir direction kOutbound)).
  pose proof (reported_count_lt fuel reader c reverse edge_id max_reach (has_dir direction kInbound)).
  split; [lia | split; [lia | intros; lia]].
Qed.

Lemma C10_witness :
  fst (reach_op fresh_state (chain 4) free_cost some_edge 2 70000 3 100) = Some (mk_directed_reach 3 3) /\
  outbound (mk_directed_reach 3 3) < 65536 /\ inbound (mk_directed_reach 3 3) < 65536 /\
  (65536 <= 70000 -> outbound (mk_directed_reach 3 3) <> 70000 /\ inbound (mk_directed_reach 3 3) <> 70000).
Proof.
  assert (H : fst (reach_op fresh_state (chain 4) free_cost some_edge 2 70000 3 100) =
              Some (mk_directed_reach 3 3)) by (vm_compute; reflexivity).
  split; [exact H | exact (C10_fields_16bit _ _ _ _ _ _ _ _ _ H)].
Defined.

(** The threshold 65536 is reached on the chain from edge 0, yet
    [operator()] reports an outbound reach of 0. *)
Example saturated_reach_reported_as_zero :
  settled_count (snd (direction_run (N.to_nat 65536) conservative (chain 65536) free_cost forward 0 65536))
    = 65536 /\
  fst (reach_op fresh_state (chain 65536) free_cost some_edge 0 65536 kOutbound (N.to_nat 65536)) =
    Some (mk_directed_reach 0 0).
Proof.
  destruct (chain_forward_saturates conservative 65536 65536 (N.to_nat 65536)) as [_ H];
    [lia | lia | rewrite N2Nat.id; lia |].
  split; [exact H|].
  rewrite reach_op_fields by reflexivity. unfold reported_count.
  rewrite has_dir_kOutbound. cbn [negb].
  assert (Hn : needs_exact (snd (direction_run (N.to_nat 65536) conservative (chain 65536) free_cost
                                   forward 0 65536)) 65536 = false)
    by (unfold needs_exact; rewrite H, N.ltb_irrefl, andb_false_r; reflexivity).
  rewrite Hn, H. reflexivity.
Qed.

(** ** Threshold monotonicity of the settled count *)

Lemma expand_from_set_max_reach (c : DynamicCost) (adj : N -> list N) (l : EdgeLabel)
  (st : ReachState) (t : N) :
  expand_from c adj l (set_max_reach st t) = set_max_reach (expand_from c adj l st) t.
Proof.
  unfold expand_from. generalize (adj (lbl_edge l)) as xs. intros xs.
  revert st. induction xs as [|x xs IH]; intros st; simpl; [reflexivity|].
  destruct (Allowed c x); rewrite <- IH; reflexivity.
Qed.

Lemma settled_count_grows (fuel : nat) (mode : ReachMode) (c : DynamicCost) (adj : N -> list N)
  (st : ReachState) :
  settled_count st <= settled_count (snd (expand_loop fuel mode c adj st)).
Proof.
  destruct (expand_loop fuel mode c adj st) as [o st'] eqn:H.
  apply expand_loop_done_grows in H as [H _]. apply subseteq_size in H.
  unfold settled_count. simpl. lia.
Qed.

(** Raising the threshold never lowers the settled count of an expansion
    (same graph, costing, seed and budget). *)
Lemma expand_loop_threshold_mono (fuel : nat) (mode : ReachMode) (c : DynamicCost)
  (adj : N -> list N) (st : ReachState) (t2 : N) :
  max_reach_ st <= t2 -> settled_count st < max_reach_ st ->
  settled_count (snd (expand_loop fuel mode c adj st)) <=
  settled_count (snd (expand_loop fuel mode c adj (set_max_reach st t2))).
Proof.
  revert st. induction fuel as [|n IH]; intros st Ht Hlt; [reflexivity|].
  cbn [expand_loop]. change (adjacency (set_max_reach st t2)) with (adjacency st).
  destruct (adjacency st) as [|l rest] eqn:Hadj; [reflexivity|].
  change (pop_label (set_max_reach st t2) l rest) with (set_max_reach (pop_label st l rest) t2).
  set (s := pop_label st l rest).
  assert (Hs : done s = done st /\ max_reach_ s = max_reach_ st) by (split; reflexivity).
  unfold ShouldExpand. change (done (set_max_reach s t2)) with (done s).
  change (max_reach_ (set_max_reach s t2)) with t2.
  destruct (decide (lbl_edge l ∈ done s)) as [Hin | Hin].
  - apply IH; [exact Ht | exact Hlt].
  - change (done (set_done (set_max_reach s t2) ({[lbl_edge l]} ∪ done s))) with ({[lbl_edge l]} ∪ done s).
    change (done (set_done s ({[lbl_edge l]} ∪ done s))) with ({[lbl_edge l]} ∪ done s).
    assert (Hsz : N.of_nat (size ({[lbl_edge l]} ∪ done s)) = settled_count st + 1)
      by (unfold settled_count; rewrite size_settle by exact Hin; rewrite (proj1 Hs); lia).
    rewrite Hsz.
    change (set_done (set_max_reach s t2) ({[lbl_edge l]} ∪ done s))
      with (set_max_reach (set_done s ({[lbl_edge l]} ∪ done s)) t2).
    set (s2 := set_done s ({[lbl_edge l]} ∪ done s)).
    assert (Hc2 : settled_count s2 = settled_count st + 1)
      by (unfold settled_count, s2; simpl; exact Hsz).
    destruct (N.eqb_spec (settled_count st + 1) (max_reach_ s)) as [Heq | Hne].
    + (* the lower threshold stops here; the higher one goes on from the same count *)
      simpl snd at 1. rewrite <- Hc2 in Heq |- *.
      destruct (N.eqb_spec (settled_count s2) t2); [apply N.le_refl|].
      destruct mode; [destruct (lbl_skippable l)|]; simpl snd;
        [ change (set_provisional (set_max_reach s2 t2) true)
            with (set_max_reach (set_provisional s2 true) t2) | | ];
        rewrite ?expand_from_set_max_reach;
        match goal with
        | |- _ <= settled_count (snd (expand_loop _ _ _ _ ?x)) =>
            etransitivity; [| apply (settled_count_grows n _ c adj x)]
        end; unfold settled_count; simpl; rewrite ?(proj1 (expand_from_fields _ _ _ _)); simpl;
        unfold settled_count in Hc2; simpl in Hc2; lia.
    + assert (Hne2 : settled_count st + 1 <> t2).
      { rewrite (proj2 Hs) in Hne. intros Heq2. lia. }
      apply N.eqb_neq in Hne2. rewrite Hne2.
      assert (Hlt2 : settled_count s2 < max_reach_ s2).
      { rewrite Hc2. change (max_reach_ s2) with (max_reach_ st). rewrite (proj2 Hs) in Hne. lia. }
      assert (Hm2 : max_reach_ s2 <= t2) by exact Ht.
      destruct mode; [destruct (lbl_skippable l)|].
      * change (set_provisional (set_max_reach s2 t2) true)
          with (set_max_reach (set_provisional s2 true) t2).
        apply IH; [exact Hm2 | exact Hlt2].
      * rewrite expand_from_set_max_reach. apply IH.
        -- rewrite (proj1 (proj2 (expand_from_fields _ _ _ _))). exact Hm2.
        -- unfold settled_count. rewrite (proj1 (expand_from_fields _ _ _ _)),
             (proj1 (proj2 (expand_from_fields _ _ _ _))). exact Hlt2.
      * rewrite expand_from_set_max_reach. apply IH.
        -- rewrite (proj1 (proj2 (expand_from_fields _ _ _ _))). exact Hm2.
        -- unfold settled_count. rewrite (proj1 (expand_from_fields _ _ _ _)),
             (proj1 (proj2 (expand_from_fields _ _ _ _))). exact Hlt2.
Qed.

Lemma direction_run_threshold_mono (fuel : nat) (mode : ReachMode) (reader : GraphReader)
  (c : DynamicCost) (ty : ExpansionType) (edge_id t1 t2 : N) :
  0 < t1 -> t1 <= t2 ->
  settled_count (snd (direction_run fuel mode reader c ty edge_id t1)) <=
  settled_count (snd (direction_run fuel mode reader c ty edge_id t2)).
Proof.
  intros H1 H12. unfold direction_run, Expand.
  change (push_label (Clear (set_max_reach fresh_state t2)) (make_label c 0 edge_id))
    with (set_max_reach (push_label (Clear (set_max_reach fresh_state t1)) (make_label c 0 edge_id)) t2).
  apply expand_loop_threshold_mono; [exact H12|].
  destruct (seeded_fields c edge_id (set_max_reach fresh_state t1)) as (Hd & _ & Hm & _).
  unfold seeded in Hd, Hm. unfold settled_count. rewrite Hd, Hm, size_empty. simpl. exact H1.
Qed.

(** X15: below 2^16 the counts [exact] reports are monotone in the
    threshold: the failure of [C7_exact_reach_wraps] comes from the 16-bit
    store only. *)
Lemma exact_reported_monotone_below_16bit (st st' : ReachState) (reader : GraphReader)
  (c : DynamicCost) (edge : option DirectedEdge) (edge_id t1 t2 direction : N) (fuel : nat) :
  1 <= t1 -> t1 <= t2 -> t2 < 65536 ->
  outbound (fst (exact st reader c edge edge_id t1 direction fuel)) <=
  outbound (fst (exact st' reader c edge edge_id t2 direction fuel)) /\
  inbound (fst (exact st reader c edge edge_id t1 direction fuel)) <=
  inbound (fst (exact st' reader c edge edge_id t2 direction fuel)).
Proof.
  intros H1 H12 H2. rewrite !exact_fields. cbn [outbound inbound].
  assert (Hb : forall ty t, 0 < t -> t < 65536 ->
    bitfield16 (settled_count (snd (direction_run fuel exact_mode reader c ty edge_id t))) =
    settled_count (snd (direction_run fuel exact_mode reader c ty edge_id t))).
  { intros ty t Ht Ht2. unfold bitfield16. apply N.mod_small.
    pose proof (direction_run_le fuel exact_mode reader c ty edge_id t Ht). lia. }
  split; [destruct (has_dir direction kOutbound) | destruct (has_dir direction kInbound)];
    try lia; rewrite !Hb by lia; apply direction_run_threshold_mono; lia.
Qed.

(** ** Direction masks (reach.h, lines 8-9 and 62) *)

(** A flag that is a power of two selects exactly its bit of the mask. *)
Lemma has_dir_pow2 (d k : N) : has_dir d (2 ^ k) = N.testbit d k.
Proof.
  unfold has_dir. destruct (N.testbit d k) eqn:Ht.
  - destruct (N.eqb_spec (N.land d (2 ^ k)) 0) as [H | H]; [|reflexivity].
    exfalso. assert (Hb : N.testbit (N.land d (2 ^ k)) k = true)
      by (rewrite N.land_spec, Ht, N.pow2_bits_true; reflexivity).
    rewrite H in Hb. discriminate.
  - replace (N.land d (2 ^ k)) with 0; [reflexivity|].
    symmetry. apply N.bits_inj_0. intros n. rewrite N.land_spec.
    destruct (N.eq_dec n k) as [-> | Hn]; [rewrite Ht; reflexivity|].
    rewrite N.pow2_bits_false by congruence. apply andb_false_r.
Qed.

Lemma has_dir_low_bits (d : N) :
  has_dir (N.land d 3) kInbound = has_dir d kInbound /\
  has_dir (N.land d 3) kOutbound = has_dir d kOutbound.
Proof.
  change kInbound with (2 ^ 0). change kOutbound with (2 ^ 1).
  rewrite !has_dir_pow2, !N.land_spec.
  split; destruct (N.testbit d _); reflexivity.
Qed.

(** X1: a direction mask built with [|] selects a flag exactly when one of
    its parts does; in particular the default [kInbound | kOutbound]
    selects each direction its parts select. *)
Theorem direction_mask_lor (a b f : N) :
  has_dir (N.lor a b) f = has_dir a f || has_dir b f.
Proof.
  unfold has_dir. rewrite N.land_lor_distr_l.
  destruct (N.eqb_spec (N.land a f) 0) as [Ha | Ha];
  destruct (N.eqb_spec (N.land b f) 0) as [Hb | Hb].
  - rewrite Ha, Hb. reflexivity.
  - rewrite Ha, N.lor_0_l. apply N.eqb_neq in Hb. rewrite Hb. reflexivity.
  - rewrite Hb, N.lor_0_r. apply N.eqb_neq in Ha. rewrite Ha. reflexivity.
  - destruct (N.eqb_spec (N.lor (N.land a f) (N.land b f)) 0) as [H | H]; [|reflexivity].
    apply N.lor_eq_0_iff in H as [H _]. contradiction.
Qed.

(** X2: [kInbound] is bit 0 and [kOutbound] bit 1 of the [uint8_t]
    direction mask. *)
Theorem direction_flags_bits (d : N) :
  has_dir d kInbound = N.testbit d 0 /\ has_dir d kOutbound = N.testbit d 1.
Proof.
  split; [change kInbound with (2 ^ 0) | change kOutbound with (2 ^ 1)]; apply has_dir_pow2.
Qed.

(** X3: only the two low bits of the direction mask matter: [operator()]
    and [exact] behave the same on [direction] and on [direction & 3]. *)
Theorem direction_mask_low_bits (st : ReachState) (reader : GraphReader) (c : DynamicCost)
  (edge : option DirectedEdge) (edge_id max_reach direction : N) (fuel : nat) :
  reach_op st reader c edge edge_id max_reach direction fuel =
  reach_op st reader c edge edge_id max_reach (N.land direction 3) fuel /\
  exact st reader c edge edge_id max_reach direction fuel =
  exact st reader c edge edge_id max_reach (N.land direction 3) fuel.
Proof.
  destruct (has_dir_low_bits direction) as [Hi Ho].
  unfold reach_op, exact. rewrite Hi, Ho. split; reflexivity.
Qed.

(** ** The 16-bit fields of [directed_reach] (reach.h, lines 37-40) *)

Lemma bitfield16_fix (v : N) : bitfield16 v = v <-> v < 65536.
Proof.
  split; [intros H; rewrite <- H; apply bitfield16_lt
         | intros H; unfold bitfield16; apply N.mod_small; exact H].
Qed.

(** X4: a value stored into a field of [directed_reach] reads back
    unchanged exactly when it is below 2^16, and storing into one field
    leaves the other field as it was. *)
Theorem directed_reach_store_roundtrip (r : directed_reach) (v : N) :
  (outbound (set_outbound r v) = v <-> v < 65536) /\
  (inbound (set_inbound r v) = v <-> v < 65536) /\
  inbound (set_outbound r v) = inbound r /\ outbound (set_inbound r v) = outbound r.
Proof.
  unfold set_outbound, set_inbound. cbn [outbound inbound].
  rewrite !bitfield16_fix. repeat split; auto.
Qed.

(** X5: storing [v] and [v + k * 2^16] into a field of [directed_reach]
    gives the same result. *)
Theorem directed_reach_store_wraps (r : directed_reach) (v k : N) :
  set_outbound r (v + k * 65536) = set_outbound r v /\
  set_inbound r (v + k * 65536) = set_inbound r v.
Proof. unfold set_outbound, set_inbound, bitfield16. rewrite N.Div0.mod_add. split; reflexivity. Qed.

(** ** What an expansion settles *)

Lemma reachable_closed (c : DynamicCost) (adj : N -> list N) (s : N) :
  closed_under c adj (reachable c adj s).
Proof. intros x Hx y Hy Ha. exact (reach_step c adj s x y Hx Hy Ha). Qed.

Lemma expand_loop_seeded_reachable (fuel : nat) (mode : ReachMode) (c : DynamicCost)
  (adj : N -> list N) (s : N) (st : ReachState) (o : Outcome) (st' : ReachState) :
  expand_loop fuel mode c adj (seeded c s st) = (o, st') ->
  forall x, x ∈ done st' -> reachable c adj s x.
Proof.
  intros Hrun. destruct (seeded_fields c s st) as (Hd & _ & _ & Ha & _).
  apply (expand_loop_within mode c adj _ fuel _ o st' (reachable_closed c adj s) Hrun).
  - rewrite Hd. set_solver.
  - intros y Hy. unfold frontier_edges in Hy. rewrite Ha in Hy. simpl in Hy.
    apply list_elem_of_singleton in Hy. subst. apply reach_seed.
Qed.

Lemma Expand_settled_reachable (fuel : nat) (mode : ReachMode) (reader : GraphReader)
  (c : DynamicCost) (ty : ExpansionType) (edge_id x : N) (st : ReachState) :
  x ∈ done (snd (Expand fuel mode reader c ty edge_id st)) ->
  reachable c (adjacent reader ty) edge_id x.
Proof.
  unfold Expand. change (push_label (Clear st) (make_label c 0 edge_id)) with (seeded c edge_id st).
  destruct (expand_loop _ _ _ _ _) as [o st'] eqn:Hrun. simpl.
  exact (expand_loop_seeded_reachable _ _ _ _ _ _ _ _ Hrun x).
Qed.


(** X7: in either mode and however it ends, an expansion settles only
    edges reachable from the seed through allowed edges. *)
Theorem expansion_settles_only_reachable (fuel : nat) (mode : ReachMode) (reader : GraphReader)
  (c : DynamicCost) (ty : ExpansionType) (edge_id x : N) (st : ReachState) :
  x ∈ done (snd (Expand fuel mode reader c ty edge_id st)) ->
  reachable c (adjacent reader ty) edge_id x.
Proof. apply Expand_settled_reachable. Qed.

(** X8: an edge the costing does not allow is never counted, the seed
    edge aside. *)
Theorem expansion_never_counts_disallowed (fuel : nat) (mode : ReachMode) (reader : GraphReader)
  (c : DynamicCost) (ty : ExpansionType) (edge_id x : N) (st : ReachState) :
  x ∈ done (snd (Expand fuel mode reader c ty edge_id st)) ->
  x = edge_id \/ Allowed c x = true.
Proof.
  intros Hx. apply Expand_settled_reachable in Hx.
  destruct Hx as [|x' y _ _ Ha]; [left; reflexivity | right; exact Ha].
Qed.

(** ** Costings without restriction-skippable edges *)

Lemma ShouldExpand_unskippable (st : ReachState) (l : EdgeLabel) :
  lbl_skippable l = false -> ShouldExpand conservative st l = ShouldExpand exact_mode st l.
Proof.
  intros H. unfold ShouldExpand. destruct (decide _); [reflexivity|].
  destruct (_ =? _); [reflexivity|]. rewrite H. reflexivity.
Qed.

Lemma insert_label_Forall (P : EdgeLabel -> Prop) (l : EdgeLabel) (adj : list EdgeLabel) :
  P l -> Forall P adj -> Forall P (insert_label l adj).
Proof.
  intros Hl Hadj. apply Forall_forall. intros x Hx.
  apply insert_label_elem in Hx as [-> | Hx]; [exact Hl|].
  rewrite Forall_forall in Hadj. auto.
Qed.

Lemma expand_from_unskippable (c : DynamicCost) (adj : N -> list N) (p : EdgeLabel)
  (st : ReachState) :
  (forall e, Skippable c e = false) ->
  Forall (fun l => lbl_skippable l = false) (adjacency st) ->
  Forall (fun l => lbl_skippable l = false) (adjacency (expand_from c adj p st)).
Proof.
  intros Hs. unfold expand_from. generalize (adj (lbl_edge p)) as xs. intros xs.
  revert st. induction xs as [|x xs IH]; intros st H; simpl; [exact H|].
  apply IH. destruct (Allowed c x); [|exact H].
  apply insert_label_Forall; [apply Hs | exact H].
Qed.

Lemma expand_loop_unskippable (fuel : nat) (c : DynamicCost) (adj : N -> list N)
  (st : ReachState) :
  (forall e, Skippable c e = false) ->
  Forall (fun l => lbl_skippable l = false) (adjacency st) ->
  expand_loop fuel conservative c adj st = expand_loop fuel exact_mode c adj st.
Proof.
  intros Hs. revert st. induction fuel as [|n IH]; intros st H; [reflexivity|].
  cbn [expand_loop]. destruct (adjacency st) as [|l rest] eqn:Hadj; [reflexivity|].
  apply Forall_cons in H as [Hl Hrest].
  rewrite (ShouldExpand_unskippable _ _ Hl).
  destruct (ShouldExpand exact_mode (pop_label st l rest) l) as [r st2] eqn:Hse.
  destruct (ShouldExpand_fields _ _ _ _ _ Hse) as (_ & _ & Ha & _).
  destruct (pop_label_fields st l rest) as (_ & _ & _ & Hpa).
  assert (H2 : Forall (fun l => lbl_skippable l = false) (adjacency st2))
    by (rewrite Ha, Hpa; exact Hrest).
  destruct r; [apply IH, expand_from_unskippable; assumption | apply IH; exact H2 | reflexivity].
Qed.

Lemma expand_loop_exact_provisional (fuel : nat) (c : DynamicCost) (adj : N -> list N)
  (st : ReachState) :
  provisional (snd (expand_loop fuel exact_mode c adj st)) = provisional st.
Proof.
  revert st. induction fuel as [|n IH]; intros st; [reflexivity|].
  cbn [expand_loop]. destruct (adjacency st) as [|l rest]; [reflexivity|].
  assert (Hp : provisional (snd (ShouldExpand exact_mode (pop_label st l rest) l)) = provisional st).
  { unfold ShouldExpand. destruct (decide _); [reflexivity|]. destruct (_ =? _); reflexivity. }
  destruct (ShouldExpand exact_mode (pop_label st l rest) l) as [r st2]. simpl in Hp.
  destruct r; [rewrite IH, (proj2 (proj2 (expand_from_fields _ _ _ _))) | rewrite IH | ]; exact Hp.
Qed.

Lemma direction_run_unskippable (fuel : nat) (reader : GraphReader) (c : DynamicCost)
  (ty : ExpansionType) (edge_id t : N) :
  (forall e, Skippable c e = false) ->
  direction_run fuel conservative reader c ty edge_id t =
  direction_run fuel exact_mode reader c ty edge_id t.
Proof.
  intros Hs. unfold direction_run, Expand. apply expand_loop_unskippable; [exact Hs|].
  simpl. constructor; [apply Hs | constructor].
Qed.

Lemma direction_run_exact_not_provisional (fuel : nat) (reader : GraphReader) (c : DynamicCost)
  (ty : ExpansionType) (edge_id t : N) :
  provisional (snd (direction_run fuel exact_mode reader c ty edge_id t)) = false.
Proof. unfold direction_run, Expand. rewrite expand_loop_exact_provisional. reflexivity. Qed.

(** X9: when the costing marks no edge restriction-skippable, [operator()]
    returns what [exact] returns for the same arguments. *)
Theorem reach_op_unskippable_is_exact (st : ReachState) (reader : GraphReader) (c : DynamicCost)
  (edge : option DirectedEdge) (edge_id max_reach direction : N) (fuel : nat) :
  valid_input reader edge edge_id max_reach = true ->
  (forall e, Skippable c e = false) ->
  fst (reach_op st reader c edge edge_id max_reach direction fuel) =
  Some (fst (exact st reader c edge edge_id max_reach direction fuel)).
Proof.
  intros Hv Hs. rewrite (reach_op_fields _ _ _ _ _ _ _ _ Hv), exact_fields.
  unfold reported_count. rewrite !(direction_run_unskippable _ _ _ _ _ _ Hs). cbv zeta.
  unfold needs_exact. rewrite !direction_run_exact_not_provisional. reflexivity.
Qed.

(** ** Witnesses *)


Lemma expansion_settles_only_reachable_witness :
  2 ∈ done (snd (Expand 10 conservative (chain 4) (unit_cost (fun e => e =? 3)) forward 0
                   (set_max_reach fresh_state 100))) /\
  reachable (unit_cost (fun e => e =? 3)) (adjacent (chain 4) forward) 0 2.
Proof.
  assert (H : 2 ∈ done (snd (Expand 10 conservative (chain 4) (unit_cost (fun e => e =? 3)) forward 0
                                (set_max_reach fresh_state 100))))
    by (apply (bool_decide_eq_true_1 _); vm_compute; reflexivity).
  split; [exact H | exact (expansion_settles_only_reachable _ _ _ _ _ _ _ _ H)].
Defined.

Lemma expansion_never_counts_disallowed_witness :
  1 ∈ done (snd (Expand 10 exact_mode (chain 4) (mkDynamicCost (fun e => negb (e =? 2))
                   (fun _ => false) (fun _ => 1)) forward 0 (set_max_reach fresh_state 100))) /\
  (1 = 0 \/ Allowed (mkDynamicCost (fun e => negb (e =? 2)) (fun _ => false) (fun _ => 1)) 1 = true).
Proof.
  assert (H : 1 ∈ done (snd (Expand 10 exact_mode (chain 4)
                               (mkDynamicCost (fun e => negb (e =? 2)) (fun _ => false) (fun _ => 1))
                               forward 0 (set_max_reach fresh_state 100))))
    by (apply (bool_decide_eq_true_1 _); vm_compute; reflexivity).
  split; [exact H | exact (expansion_never_counts_disallowed _ _ _ _ _ _ _ _ H)].
Defined.

Lemma reach_op_unskippable_is_exact_witness :
  valid_input (chain 4) some_edge 2 10 = true /\
  (forall e, Skippable free_cost e = false) /\
  fst (reach_op fresh_state (chain 4) free_cost some_edge 2 10 3 100) =
  Some (fst (exact fresh_state (chain 4) free_cost some_edge 2 10 3 100)).
Proof.
  assert (Hs : forall e, Skippable free_cost e = false) by (intros e; reflexivity).
  split; [reflexivity | split; [exact Hs |]].
  apply reach_op_unskippable_is_exact; [reflexivity | exact Hs].
Defined.


Lemma exact_reported_monotone_below_16bit_witness :
  1 <= 2 /\ 2 <= 3 /\ 3 < 65536 /\
  outbound (fst (exact fresh_state (chain 4) free_cost some_edge 1 2 3 100)) <=
  outbound (fst (exact fresh_state (chain 4) free_cost some_edge 1 3 3 100)) /\
  inbound (fst (exact fresh_state (chain 4) free_cost some_edge 1 2 3 100)) <=
  inbound (fst (exact fresh_state (chain 4) free_cost some_edge 1 3 3 100)).
Proof.
  split; [lia | split; [lia | split; [lia |]]].
  apply exact_reported_monotone_below_16bit; lia.
Defined.
